(** * Poetry Camera: deferred deletion with undo, and long-press detection

    A shallow embedding of the two stateful pieces of
    [src/poetry_camera_app.jsx]:

    - [HistoryScreen]: the list of shots, the single pending deletion, the
      countdown effect and the two handlers [handleLongPressDelete] and
      [undoDelete];
    - [ShotItem]: the per-item long-press detector built on [setTimeout].

    JavaScript numbers that hold integers (ids, seconds, milliseconds) are
    [Z]; timer handles, which the platform hands out as integers greater
    than zero, are [positive]. *)

From Stdlib Require Import String.
From Stdlib Require Import ZArith List Bool Lia Permutation Sorted.
Import ListNotations.
Open Scope Z_scope.

(* ------------------------------------------------------------------ *)
(** * HistoryScreen                                                     *)
(* ------------------------------------------------------------------ *)
Module HistoryScreen.

(** A shot is the object [{ id }]. *)
Record Shot : Type := mkShot { id : Z }.

(** The pending deletion is the object [{ id, secondsLeft }]; its [id]
    field is called [pending_id] here, since [id] is the field of [Shot]. *)
Record Pending : Type := mkPending { pending_id : Z; secondsLeft : Z }.

Abbreviation handle := positive (only parsing).

(** The component's two [useState] cells, together with the part of the
    environment the countdown effect talks to: the intervals armed in the
    scheduler, the interval that the clean-up function returned by the last
    run of the effect will clear, and the next handle [setInterval] returns. *)
Record World : Type := mkWorld {
  shots : list Shot;
  pending : option Pending;
  intervals : list handle;
  cleanup : option handle;
  nextHandle : handle
}.

(** [Array.from({ length: 8 }, (_, i) => ({ id: i + 1 }))] *)
Definition initialShots : list Shot :=
  map (fun i => mkShot (Z.of_nat i + 1)) (seq 0 8).

(** The state right after the first render with store [s]:
    [useState(s)], [useState(null)]; the effect ran and returned early. *)
Definition mount (s : list Shot) : World :=
  mkWorld s None [] None 1%positive.

Definition initial : World := mount initialShots.

(** ** Array.prototype.sort with the comparator [(a, b) => a.id - b.id] *)

Definition compareFn (a b : Shot) : Z := id a - id b.

(** [sort] is stable, and a stable sort under a consistent comparator has
    one possible result; it is computed here by stable insertion. *)
Fixpoint insert (x : Shot) (l : list Shot) : list Shot :=
  match l with
  | [] => [x]
  | y :: l' => if compareFn x y <=? 0 then x :: l else y :: insert x l'
  end.

Definition sort (l : list Shot) : list Shot := fold_right insert [] l.

(** ** The scheduler's intervals *)

Definition clearInterval (h : handle) (w : World) : World :=
  mkWorld (shots w) (pending w)
          (filter (fun k => negb (Pos.eqb k h)) (intervals w))
          (cleanup w) (nextHandle w).

(** ** The countdown effect, [useEffect(..., [pending])] *)

(** The clean-up of the previous run: [() => clearInterval(interval)]. *)
Definition run_cleanup (w : World) : World :=
  match cleanup w with
  | None => w
  | Some h =>
      let w' := clearInterval h w in
      mkWorld (shots w') (pending w') (intervals w') None (nextHandle w')
  end.

(** The body of the effect: [if (!pending) return;] otherwise
    [setInterval(..., 1000)] and the clean-up that clears it. *)
Definition run_effect (w : World) : World :=
  match pending w with
  | None => w
  | Some _ =>
      let h := nextHandle w in
      mkWorld (shots w) (pending w) (intervals w ++ [h]) (Some h) (Pos.succ h)
  end.

(** [setShots(f)]: the updater is applied to the current store.  The
    dependency of the effect is [pending] alone, so no effect runs. *)
Definition setShots (f : list Shot -> list Shot) (w : World) : World :=
  mkWorld (f (shots w)) (pending w) (intervals w) (cleanup w) (nextHandle w).

(** [setPending(v)] and the render that follows.  Every non-null value the
    code passes is a freshly built object, so the dependency [pending] has
    changed unless it was [null] and stays [null]; when it has changed the
    previous clean-up runs and then the effect. *)
Definition setPending (v : option Pending) (w : World) : World :=
  match pending w, v with
  | None, None => w
  | _, _ =>
      let w1 := run_cleanup w in
      run_effect (mkWorld (shots w1) v (intervals w1) (cleanup w1) (nextHandle w1))
  end.

(** The callback of interval [h]:
[[
      setPending((p) => {
        if (!p) return null;
        if (p.secondsLeft <= 1) { clearInterval(interval); return null; }
        return { ...p, secondsLeft: p.secondsLeft - 1 };
      });
]] *)
Definition interval_callback (h : handle) (w : World) : World :=
  match pending w with
  | None => setPending None w
  | Some p =>
      if secondsLeft p <=? 1
      then setPending None (clearInterval h w)
      else setPending (Some (mkPending (pending_id p) (secondsLeft p - 1))) w
  end.

(** An interval fires only while it is armed. *)
Definition fire (h : handle) (w : World) : World :=
  if existsb (Pos.eqb h) (intervals w) then interval_callback h w else w.

(** One second (1000 ms) elapses: every interval that was armed at the
    start of the second, and is still armed when its turn comes, fires. *)
Definition tick (w : World) : World :=
  fold_left (fun acc h => fire h acc) (intervals w) w.

Fixpoint ticks (n : nat) (w : World) : World :=
  match n with
  | O => w
  | S n' => ticks n' (tick w)
  end.

(** ** The handlers *)

(** Both handlers are closures built by a render: [pending_r] is the value
    of [pending] in that render, while the updater given to [setShots] sees
    the store of the moment it is applied. *)

(**
[[
  const handleLongPressDelete = (id) => {
    if (pending) return; // only one undoable deletion at a time
    setShots((s) => s.filter((shot) => shot.id !== id));
    setPending({ id, secondsLeft: 5 });
  };
]] *)
Definition handleLongPressDelete (pending_r : option Pending) (i : Z)
    (w : World) : World :=
  match pending_r with
  | Some _ => w
  | None =>
      setPending (Some (mkPending i 5))
        (setShots (filter (fun shot => negb (id shot =? i))) w)
  end.

(**
[[
  const undoDelete = () => {
    if (!pending) return;
    setShots((s) => [...s, { id: pending.id }].sort((a, b) => a.id - b.id));
    setPending(null);
  };
]] *)
Definition undoDelete (pending_r : option Pending) (w : World) : World :=
  match pending_r with
  | None => w
  | Some p =>
      setPending None
        (setShots (fun s => sort (s ++ [mkShot (pending_id p)])) w)
  end.

(** The controller's operations: the handlers of the current render. *)
Definition requestDelete (i : Z) (w : World) : World :=
  handleLongPressDelete (pending w) i w.

Definition undo (w : World) : World := undoDelete (pending w) w.

Inductive Op : Type :=
| RequestDelete (i : Z)
| Undo
| Tick.

Definition step (o : Op) (w : World) : World :=
  match o with
  | RequestDelete i => requestDelete i w
  | Undo => undo w
  | Tick => tick w
  end.

Definition run (ops : list Op) (w : World) : World :=
  fold_left (fun acc o => step o acc) ops w.

(** ** Vocabulary of the state machine *)

Definition ids (s : list Shot) : list Z := map id s.

(** [Idle]: no pending record, and no interval running or awaiting
    clean-up. *)
Definition Idle (w : World) : Prop :=
  pending w = None /\ intervals w = [] /\ cleanup w = None.

(** The periodic tick is stopped. *)
Definition stopped (w : World) : Prop :=
  intervals w = [] /\ cleanup w = None.

(** Exactly one interval is running, the one the effect will clear. *)
Definition ticking (w : World) : Prop :=
  exists h, intervals w = [h] /\ cleanup w = Some h.

Definition sorted_by_id (s : list Shot) : Prop :=
  StronglySorted Z.le (ids s).

(** The interval runs exactly while a deletion is pending. *)
Definition timer_inv (w : World) : Prop :=
  match pending w with
  | None => stopped w
  | Some _ => ticking w
  end.

(** The countdown value of a pending record lies in the window. *)
Definition window_inv (w : World) : Prop :=
  forall p, pending w = Some p -> 1 <= secondsLeft p <= 5.

(** Keys are unique, and the pending key is not in the store. *)
Definition store_inv (w : World) : Prop :=
  NoDup (ids (shots w)) /\
  forall p, pending w = Some p -> ~ In (pending_id p) (ids (shots w)).

(** ** Calls from any render *)

(** What reaches the component: [LongPress pending_r i] is the call
    [onLongPress(i)] made by a timer of a [ShotItem], through the handler
    of the render that was current when the press started, [pending_r]
    being the [pending] of that render; [ClickUndo] is a click on the undo
    button, which always carries the handler of the current render;
    [Second] is the lapse of one second. *)
Inductive Action : Type :=
| LongPress (pending_r : option Pending) (i : Z)
| ClickUndo
| Second.

Definition act (a : Action) (w : World) : World :=
  match a with
  | LongPress pending_r i => handleLongPressDelete pending_r i w
  | ClickUndo => undo w
  | Second => tick w
  end.

Definition play (acts : list Action) (w : World) : World :=
  fold_left (fun acc a => act a acc) acts w.

(** The ids named by the long presses of a sequence of actions. *)
Definition requested (acts : list Action) : list Z :=
  flat_map (fun a => match a with LongPress _ i => [i] | _ => [] end) acts.

End HistoryScreen.

(* ------------------------------------------------------------------ *)
(** * ShotItem: the long-press detector                                 *)
(* ------------------------------------------------------------------ *)
Module ShotItem.

Abbreviation handle := positive (only parsing).

(** The long-press threshold, the delay given to [setTimeout]. *)
Definition T : Z := 3000.

(** One instance of the component with the part of the scheduler it uses:
    the mutable slot [timerRef.current], the single-shot timers this
    instance has armed (handle and due time), the clock in milliseconds,
    the next handle [setTimeout] returns, and the calls [onLongPress(id)]
    made so far, each recorded by the timer that made it. *)
Record Detector : Type := mkDetector {
  timerRef : option handle;
  timeouts : list (handle * Z);
  clock : Z;
  nextTimer : handle;
  longPresses : list handle
}.

(** [useRef(null)] on a fresh instance. *)
Definition fresh (now : Z) : Detector := mkDetector None [] now 1%positive [].

Definition armed (d : Detector) : list handle := map fst (timeouts d).

(** [timerRef.current = setTimeout(() => onLongPress(id), 3000)] *)
Definition startPress (d : Detector) : Detector :=
  let h := nextTimer d in
  mkDetector (Some h) (timeouts d ++ [(h, clock d + T)]) (clock d)
             (Pos.succ h) (longPresses d).

Definition clearTimeout (h : handle) (d : Detector) : Detector :=
  mkDetector (timerRef d)
             (filter (fun t => negb (Pos.eqb (fst t) h)) (timeouts d))
             (clock d) (nextTimer d) (longPresses d).

(** [timerRef.current && clearTimeout(timerRef.current)]: a handle is a
    number greater than zero, hence truthy; only [null] skips the call.
    The slot keeps its value. *)
Definition endPress (d : Detector) : Detector :=
  match timerRef d with
  | None => d
  | Some h => clearTimeout h d
  end.

Definition is_due (now : Z) (t : handle * Z) : bool := snd t <=? now.

(** [dt] milliseconds elapse: every armed timer whose due time has been
    reached runs its callback once and is gone. *)
Definition advance (dt : Z) (d : Detector) : Detector :=
  let now := clock d + dt in
  mkDetector (timerRef d)
             (filter (fun t => negb (is_due now t)) (timeouts d))
             now (nextTimer d)
             (longPresses d ++ map fst (filter (is_due now) (timeouts d))).

Definition elapse (dts : list Z) (d : Detector) : Detector :=
  fold_left (fun acc dt => advance dt acc) dts d.

(** [onMouseDown]/[onTouchStart] call [startPress];
    [onMouseUp]/[onMouseLeave]/[onTouchEnd] call [endPress]. *)
Inductive Event : Type :=
| PressStart
| PressEnd
| Elapse (dt : Z).

Definition handleEvent (e : Event) (d : Detector) : Detector :=
  match e with
  | PressStart => startPress d
  | PressEnd => endPress d
  | Elapse dt => advance dt d
  end.

Definition run (evs : list Event) (d : Detector) : Detector :=
  fold_left (fun acc e => handleEvent e acc) evs d.

Definition total (dts : list Z) : Z := fold_right Z.add 0 dts.

(** Handles in use are older than the next one to be handed out. *)
Definition wf (d : Detector) : Prop :=
  Forall (fun h => (h < nextTimer d)%positive) (armed d) /\
  Forall (fun h => (h < nextTimer d)%positive) (longPresses d).

(** Number of long-press events made by timer [h]. *)
Definition emitted (h : handle) (d : Detector) : nat :=
  count_occ Pos.eq_dec (longPresses d) h.

(** Timer [h] is neither armed nor still to be handed out. *)
Definition spent (h : handle) (d : Detector) : Prop :=
  ~ In h (armed d) /\ (h < nextTimer d)%positive.

(** Every armed timer with handle [h] is due at [due]. *)
Definition due_at (h : handle) (due : Z) (d : Detector) : Prop :=
  forall t, In t (timeouts d) -> fst t = h -> snd t = due.

(** Number of presses started in a sequence of events. *)
Definition starts (evs : list Event) : nat :=
  List.length
    (filter (fun e => match e with PressStart => true | _ => false end) evs).

End ShotItem.

(* ------------------------------------------------------------------ *)
(** * App: the current screen and the flash                             *)
(* ------------------------------------------------------------------ *)
Module App.

(** [useState("camera")] and [useState(false)]. *)
Record State : Type := mkState { screen : string; flashOn : bool }.

Definition init : State := mkState "camera" false.

Definition setScreen (v : string) (st : State) : State :=
  mkState v (flashOn st).

Definition setFlashOn (f : bool -> bool) (st : State) : State :=
  mkState (screen st) (f (flashOn st)).

(** The handlers [App] passes down. *)
Definition onHistory : State -> State := setScreen "history".
Definition onSettings : State -> State := setScreen "settings".
Definition onBack : State -> State := setScreen "camera".
Definition toggleFlash : State -> State := setFlashOn negb.

Inductive Component : Type := Camera | History | Settings.

(** The children of [AnimatePresence]: each [screen === "..." && <.../>]. *)
Definition render (st : State) : list Component :=
  (if String.eqb (screen st) "camera" then [Camera] else []) ++
  (if String.eqb (screen st) "history" then [History] else []) ++
  (if String.eqb (screen st) "settings" then [Settings] else []).

(** A call of one of the four handlers.  The handlers do not read the
    state, so a call made through a screen that is on its way out does the
    same as one made through the current screen. *)
Inductive Call : Type := OnHistory | OnSettings | OnBack | ToggleFlash.

Definition call (c : Call) : State -> State :=
  match c with
  | OnHistory => onHistory
  | OnSettings => onSettings
  | OnBack => onBack
  | ToggleFlash => toggleFlash
  end.

Definition calls (cs : list Call) (st : State) : State :=
  fold_left (fun acc c => call c acc) cs st.

(** Number of calls of [toggleFlash] in a sequence. *)
Definition toggles (cs : list Call) : nat :=
  List.length
    (filter (fun c => match c with ToggleFlash => true | _ => false end) cs).

End App.

(* ------------------------------------------------------------------ *)
(** * SettingsScreen: the poem type picker                              *)
(* ------------------------------------------------------------------ *)
Module SettingsScreen.

(** The cell [selectedPoemType] of the component, [useState("Haiku")].  The
    other cell, [temperature], is a floating-point number with its own
    handler and is not part of this development. *)
Definition init : string := "Haiku".

Definition poemTypes : list string :=
  ["Haiku"; "Sonnet"; "Limerick"; "Free Verse"; "Acrostic"]%string.

(** One radio input per poem type: its [value] and its [checked]. *)
Definition radios (selectedPoemType : string) : list (string * bool) :=
  map (fun type => (type, String.eqb selectedPoemType type)) poemTypes.

(** [onChange={(e) => setSelectedPoemType(e.target.value)}] *)
Definition onChange (value : string) (selectedPoemType : string) : string :=
  value.

(** The user picks the [k]-th radio: [e.target.value] is its [value]. *)
Definition pick (k : nat) (selectedPoemType : string) : string :=
  match nth_error (radios selectedPoemType) k with
  | Some (value, _) => onChange value selectedPoemType
  | None => selectedPoemType
  end.

Definition picks (ks : list nat) (selectedPoemType : string) : string :=
  fold_left (fun acc k => pick k acc) ks selectedPoemType.

Definition checked (selectedPoemType : string) : list string :=
  map fst (filter snd (radios selectedPoemType)).

End SettingsScreen.

(* ------------------------------------------------------------------ *)
(** * Properties of the pending-deletion controller                     *)
(* ------------------------------------------------------------------ *)
Section Controller.
Import HistoryScreen.

(** ** The store operations: filter and sort *)

Lemma shot_eq (a b : Shot) : id a = id b -> a = b.
Proof. destruct a, b; simpl; congruence. Qed.

Lemma ids_inj (l1 l2 : list Shot) : ids l1 = ids l2 -> l1 = l2.
Proof.
  revert l2; induction l1 as [|a l1 IH]; intros [|b l2] H; simpl in H;
    try discriminate; auto.
  injection H as Hab Hl. f_equal; [now apply shot_eq | now apply IH].
Qed.

Lemma filter_absent (i : Z) (s : list Shot) :
  ~ In i (ids s) -> filter (fun shot => negb (id shot =? i)) s = s.
Proof.
  induction s as [|a s IH]; simpl; intros H; auto.
  destruct (Z.eqb_spec (id a) i) as [E|E]; simpl.
  - exfalso; apply H; now left.
  - f_equal; apply IH; intros Hin; apply H; now right.
Qed.

Lemma filter_removes (i : Z) (s : list Shot) :
  ~ In i (ids (filter (fun shot => negb (id shot =? i)) s)).
Proof.
  unfold ids; rewrite in_map_iff; intros (x & Hx & Hin).
  apply filter_In in Hin as [_ Hf].
  rewrite <- Hx, Z.eqb_refl in Hf; discriminate.
Qed.

Lemma filter_ids_incl (f : Shot -> bool) (s : list Shot) (i : Z) :
  In i (ids (filter f s)) -> In i (ids s).
Proof.
  unfold ids; rewrite !in_map_iff; intros (x & Hx & Hin).
  apply filter_In in Hin as [Hin _]; eauto.
Qed.

Lemma filter_NoDup (f : Shot -> bool) (s : list Shot) :
  NoDup (ids s) -> NoDup (ids (filter f s)).
Proof.
  induction s as [|a s IH]; simpl; intros H; auto.
  inversion H as [|? ? Hn Hs]; subst.
  destruct (f a); simpl; auto.
  constructor; auto.
  intros Hin; apply Hn; eapply filter_ids_incl; eauto.
Qed.

Lemma filter_sorted (f : Shot -> bool) (s : list Shot) :
  sorted_by_id s -> sorted_by_id (filter f s).
Proof.
  unfold sorted_by_id.
  induction s as [|a s IH]; simpl; intros H; auto.
  inversion H as [|? ? Hs Hf]; subst.
  destruct (f a); simpl; auto.
  constructor; auto.
  rewrite Forall_forall in *; intros x Hx; apply Hf.
  eapply filter_ids_incl; eauto.
Qed.

Lemma insert_perm (x : Shot) (l : list Shot) : Permutation (insert x l) (x :: l).
Proof.
  induction l as [|y l IH]; simpl; auto.
  destruct (compareFn x y <=? 0); auto.
  rewrite IH; apply perm_swap.
Qed.

Lemma sort_perm (l : list Shot) : Permutation (sort l) l.
Proof.
  induction l as [|x l IH]; simpl; auto.
  rewrite insert_perm; auto.
Qed.

Lemma insert_sorted (x : Shot) (l : list Shot) :
  sorted_by_id l -> sorted_by_id (insert x l).
Proof.
  unfold sorted_by_id.
  induction l as [|y l IH]; simpl; intros H.
  - repeat constructor.
  - inversion H as [|? ? Hs Hf]; subst.
    unfold compareFn.
    destruct (Z.leb_spec (id x - id y) 0) as [L|L]; simpl.
    + constructor; auto. constructor; [lia|].
      eapply Forall_impl; [|exact Hf]; simpl; intros; lia.
    + constructor; [now apply IH|].
      assert (Hp : Permutation (ids (insert x l)) (id x :: ids l))
        by (change (id x :: ids l) with (ids (x :: l));
            apply Permutation_map, insert_perm).
      eapply Permutation_Forall; [symmetry; exact Hp|].
      constructor; [lia | exact Hf].
Qed.

Lemma sort_sorted (l : list Shot) : sorted_by_id (sort l).
Proof.
  induction l as [|x l IH]; simpl.
  - constructor.
  - now apply insert_sorted.
Qed.

(** A list of integers has one non-decreasing arrangement. *)
Lemma sorted_perm_unique (l1 l2 : list Z) :
  StronglySorted Z.le l1 -> StronglySorted Z.le l2 ->
  Permutation l1 l2 -> l1 = l2.
Proof.
  revert l2; induction l1 as [|a l1 IH]; intros l2 H1 H2 P.
  - apply Permutation_nil in P; now subst.
  - destruct l2 as [|b l2].
    + symmetry in P; apply Permutation_nil in P; discriminate.
    + inversion H1 as [|? ? S1 F1]; inversion H2 as [|? ? S2 F2]; subst.
      rewrite Forall_forall in F1, F2.
      assert (a = b).
      { assert (Ha : In a (b :: l2))
          by (eapply Permutation_in; [exact P | now left]).
        assert (Hb : In b (a :: l1))
          by (eapply Permutation_in; [symmetry; exact P | now left]).
        destruct Ha as [Ha|Ha]; [now subst|].
        destruct Hb as [Hb|Hb]; [now subst|].
        specialize (F1 _ Hb); specialize (F2 _ Ha); lia. }
      subst; f_equal; apply IH; auto.
      eapply Permutation_cons_inv; eauto.
Qed.

(** The result of [sort] depends only on which shots the array holds. *)
Lemma sort_perm_eq (l1 l2 : list Shot) :
  Permutation l1 l2 -> sort l1 = sort l2.
Proof.
  intros P; apply ids_inj, sorted_perm_unique; try apply sort_sorted.
  apply Permutation_map.
  rewrite !sort_perm; exact P.
Qed.

Lemma sort_of_sorted (l : list Shot) : sorted_by_id l -> sort l = l.
Proof.
  intros H; apply ids_inj, sorted_perm_unique.
  - apply sort_sorted.
  - exact H.
  - apply Permutation_map, sort_perm.
Qed.

(** ** One step of the controller, computed *)

Lemma tick_stopped (w : World) : intervals w = [] -> tick w = w.
Proof. unfold tick; intros ->; reflexivity. Qed.

Lemma requestDelete_idle (i : Z) (s : list Shot) (n : handle) :
  requestDelete i (mkWorld s None [] None n) =
  mkWorld (filter (fun shot => negb (id shot =? i)) s)
          (Some (mkPending i 5)) [n] (Some n) (Pos.succ n).
Proof. reflexivity. Qed.

Lemma tick_pending (s : list Shot) (i k : Z) (h n : handle) :
  tick (mkWorld s (Some (mkPending i k)) [h] (Some h) n) =
  if k <=? 1
  then mkWorld s None [] None n
  else mkWorld s (Some (mkPending i (k - 1))) [n] (Some n) (Pos.succ n).
Proof.
  unfold tick, fire, interval_callback; simpl.
  rewrite Pos.eqb_refl; simpl.
  destruct (k <=? 1); unfold setPending, run_cleanup, run_effect; simpl;
    rewrite Pos.eqb_refl; reflexivity.
Qed.

Lemma undo_pending (s : list Shot) (i k : Z) (h n : handle) :
  undo (mkWorld s (Some (mkPending i k)) [h] (Some h) n) =
  mkWorld (sort (s ++ [mkShot i])) None [] None n.
Proof.
  unfold undo, undoDelete, setPending, run_cleanup, run_effect; simpl.
  rewrite Pos.eqb_refl; reflexivity.
Qed.

(** Case analysis on a state that satisfies [timer_inv]: it is either
    stopped with nothing pending, or pending with its one interval. *)
Ltac by_shape w Ht :=
  let h := fresh "h" in
  destruct w as [?s [[?i ?k]|] ?iv ?c ?n];
  unfold timer_inv, ticking, stopped in Ht; simpl in Ht;
  [ destruct Ht as (h & -> & ->) | destruct Ht as (-> & ->) ].

Lemma Idle_shape (w : World) :
  Idle w -> w = mkWorld (shots w) None [] None (nextHandle w).
Proof.
  destruct w; unfold Idle; simpl; intros (-> & -> & ->); reflexivity.
Qed.

Lemma shots_tick (w : World) : timer_inv w -> shots (tick w) = shots w.
Proof.
  intros H; by_shape w H.
  - rewrite tick_pending; destruct (k <=? 1); reflexivity.
  - reflexivity.
Qed.

(** ** Invariants of every run *)

Lemma step_timer_window (o : Op) (w : World) :
  timer_inv w /\ window_inv w ->
  timer_inv (step o w) /\ window_inv (step o w).
Proof.
  intros [Ht Hw]; by_shape w Ht.
  - assert (Hk : 1 <= k <= 5) by (apply (Hw (mkPending i k)); reflexivity).
    destruct o as [j| |]; simpl.
    + split; [now exists h | exact Hw].
    + rewrite undo_pending; split; [now split | intros p [=]].
    + rewrite tick_pending.
      destruct (Z.leb_spec k 1) as [L|L]; split.
      * now split.
      * intros p [=].
      * now exists n.
      * intros p [= <-]; simpl; lia.
  - destruct o as [j| |]; simpl.
    + rewrite requestDelete_idle; split.
      * now exists n.
      * intros p [= <-]; simpl; lia.
    + split; [now split | exact Hw].
    + split; [now split | exact Hw].
Qed.

Lemma Idle_inv (w : World) : Idle w -> timer_inv w /\ window_inv w.
Proof.
  intros (Hp & Hi & Hc); unfold timer_inv, window_inv, stopped.
  rewrite Hp; repeat split; auto; discriminate.
Qed.

Lemma run_snoc (ops : list Op) (o : Op) (w : World) :
  run (ops ++ [o]) w = step o (run ops w).
Proof. unfold run; now rewrite fold_left_app. Qed.

Lemma run_timer_window (ops : list Op) (w0 : World) :
  Idle w0 -> timer_inv (run ops w0) /\ window_inv (run ops w0).
Proof.
  intros H0; induction ops as [|o ops IH] using rev_ind.
  - now apply Idle_inv.
  - rewrite run_snoc; now apply step_timer_window.
Qed.

Lemma step_store (o : Op) (w : World) :
  timer_inv w -> store_inv w -> store_inv (step o w).
Proof.
  intros Ht [Hn Hp]; by_shape w Ht; simpl in *.
  - assert (Hi : ~ In i (ids s)) by (apply (Hp (mkPending i k)); reflexivity).
    destruct o as [j| |]; simpl.
    + now split.
    + rewrite undo_pending; split; simpl; [|intros p [=]].
      assert (P : Permutation (ids (sort (s ++ [mkShot i]))) (i :: ids s)).
      { unfold ids; rewrite sort_perm, map_app; simpl.
        symmetry; apply Permutation_cons_append. }
      eapply Permutation_NoDup; [symmetry; exact P|].
      now constructor.
    + rewrite tick_pending.
      destruct (k <=? 1); split; simpl; auto.
      * intros p [=].
      * intros p [= <-]; exact Hi.
  - destruct o as [j| |]; simpl.
    + rewrite requestDelete_idle; split; simpl.
      * now apply filter_NoDup.
      * intros p [= <-]; simpl; apply filter_removes.
    + now split.
    + now split.
Qed.

Lemma run_store (ops : list Op) (w0 : World) :
  Idle w0 -> NoDup (ids (shots w0)) -> store_inv (run ops w0).
Proof.
  intros H0 Hn; induction ops as [|o ops IH] using rev_ind.
  - split; [exact Hn|]. destruct H0 as (Hp & _); simpl; rewrite Hp; discriminate.
  - rewrite run_snoc; apply step_store; auto.
    now apply run_timer_window.
Qed.

(** ** Counting down *)

Lemma ticks_pending (k : nat) (s : list Shot) (i j : Z) (h n : handle) :
  Z.of_nat k < j ->
  exists h' n',
    ticks k (mkWorld s (Some (mkPending i j)) [h] (Some h) n) =
    mkWorld s (Some (mkPending i (j - Z.of_nat k))) [h'] (Some h') n'.
Proof.
  revert j h n; induction k as [|k IH]; intros j h n Hk.
  - exists h, n; simpl; now rewrite Z.sub_0_r.
  - cbn [ticks]; rewrite tick_pending.
    destruct (Z.leb_spec j 1) as [L|L]; [lia|].
    destruct (IH (j - 1) n (Pos.succ n)) as (h' & n' & E); [lia|].
    exists h', n'; rewrite E; do 3 f_equal; lia.
Qed.

Lemma ticks_stopped (k : nat) (w : World) : intervals w = [] -> ticks k w = w.
Proof.
  intros H; induction k as [|k IH]; simpl; auto.
  now rewrite tick_stopped.
Qed.

(** ** Re-insertion by [sort] *)

Lemma sort_snoc_sorted (x : Shot) (l : list Shot) :
  sorted_by_id l -> sort (l ++ [x]) = insert x l.
Proof.
  intros H.
  rewrite (sort_perm_eq (l ++ [x]) (x :: l))
    by (symmetry; apply Permutation_cons_append).
  simpl; now rewrite sort_of_sorted.
Qed.

Lemma insert_position (x : Shot) (l : list Shot) :
  sorted_by_id l -> ~ In (id x) (ids l) ->
  exists lo hi,
    l = lo ++ hi /\ insert x l = lo ++ x :: hi /\
    Forall (fun y => id y < id x) lo /\ Forall (fun y => id x < id y) hi.
Proof.
  unfold sorted_by_id.
  induction l as [|y l IH]; simpl; intros Hs Hn.
  - exists [], []; repeat split; constructor.
  - inversion Hs as [|? ? Hs' Hf]; subst.
    assert (Hxy : id x <> id y) by (intros E; apply Hn; now left).
    unfold compareFn; destruct (Z.leb_spec (id x - id y) 0) as [L|L].
    + exists [], (y :: l); repeat split; auto.
      constructor; [lia|].
      rewrite Forall_forall in *; intros z Hz.
      assert (id y <= id z) by (apply Hf; unfold ids; now apply in_map).
      lia.
    + destruct IH as (lo & hi & E1 & E2 & F1 & F2); auto.
      exists (y :: lo), hi; repeat split.
      * simpl; now rewrite <- E1.
      * simpl; now rewrite E2.
      * constructor; [lia | exact F1].
      * exact F2.
Qed.

Lemma filter_reinsert_perm (i : Z) (s : list Shot) :
  NoDup (ids s) -> In i (ids s) ->
  Permutation (mkShot i :: filter (fun shot => negb (id shot =? i)) s) s.
Proof.
  induction s as [|a s IH]; simpl; intros Hn Hin; [contradiction|].
  inversion Hn as [|? ? Ha Hs]; subst.
  destruct (Z.eqb_spec (id a) i) as [E|E]; simpl.
  - subst i. rewrite filter_absent by exact Ha.
    destruct a; reflexivity.
  - destruct Hin as [Hin|Hin]; [contradiction|].
    rewrite perm_swap; apply perm_skip; now apply IH.
Qed.

Lemma undo_restores_original (i : Z) (s : list Shot) :
  sorted_by_id s -> NoDup (ids s) -> In i (ids s) ->
  sort (filter (fun shot => negb (id shot =? i)) s ++ [mkShot i]) = s.
Proof.
  intros Hs Hn Hin.
  rewrite (sort_perm_eq _ s).
  - now apply sort_of_sorted.
  - rewrite <- Permutation_cons_append; now apply filter_reinsert_perm.
Qed.

(** Order and uniqueness of a store given by its elements. *)
Ltac sorted_concrete :=
  unfold sorted_by_id; simpl;
  repeat (first [ apply SSorted_nil | apply SSorted_cons
                | apply Forall_nil | apply Forall_cons ]);
  lia.

Ltac nodup_concrete :=
  simpl;
  repeat (apply NoDup_cons; [simpl; intuition discriminate|]);
  apply NoDup_nil.

(** ** The claims about the controller *)

(** C1, as stated, fails: [handleLongPressDelete] has no presence test.
    With the eight initial shots and nothing pending, a request for the
    absent id 99 leaves the store alone but creates the pending record
    [{ id: 99, secondsLeft: 5 }], so the controller is no longer Idle. *)
Lemma requestDelete_absent_not_inert :
  Idle initial /\
  ~ In 99 (ids (shots initial)) /\
  pending (requestDelete 99 initial) = Some (mkPending 99 5) /\
  ~ Idle (requestDelete 99 initial).
Proof.
  split; [repeat split|].
  split; [vm_compute; intuition discriminate|].
  split; [reflexivity|].
  intros (Hp & _); vm_compute in Hp; discriminate.
Qed.

(** C1, amended: for an id that is not in the store, [requestDelete] while
    Idle leaves the store unchanged, but it is accepted: the controller
    enters Pending with [secondsLeft = 5] for that id and the periodic tick
    is started. *)
Theorem requestDelete_absent (i : Z) (w : World) :
  Idle w -> ~ In i (ids (shots w)) ->
  shots (requestDelete i w) = shots w /\
  pending (requestDelete i w) = Some (mkPending i 5) /\
  ticking (requestDelete i w).
Proof.
  intros HI Hn; rewrite (Idle_shape w HI), requestDelete_idle; simpl.
  repeat split.
  - now apply filter_absent.
  - now exists (nextHandle w).
Qed.

Lemma requestDelete_absent_witness :
  shots (requestDelete 99 initial) = shots initial /\
  pending (requestDelete 99 initial) = Some (mkPending 99 5) /\
  ticking (requestDelete 99 initial).
Proof.
  apply (requestDelete_absent 99 initial).
  - repeat split.
  - vm_compute; intuition discriminate.
Defined.

(** C3: from Idle, [requestDelete] of a present id followed by five ticks
    and no undo leaves the item absent from the store for good (no later
    tick and no undo brings it back), the controller Idle with the pending
    record gone and the interval stopped; the store is written once, on
    entry to Pending, and no tick, the fifth included, changes it. *)
Theorem delete_then_five_ticks (i : Z) (w : World) :
  Idle w -> In i (ids (shots w)) ->
  let w1 := requestDelete i w in
  let w5 := ticks 5 w1 in
  shots w1 = filter (fun shot => negb (id shot =? i)) (shots w) /\
  pending (ticks 4 w1) = Some (mkPending i 1) /\
  ~ In i (ids (shots w5)) /\
  Idle w5 /\
  shots w5 = shots (ticks 4 w1) /\
  (forall k, (k <= 5)%nat -> shots (ticks k w1) = shots w1) /\
  undo w5 = w5 /\
  (forall n, ticks n w5 = w5).
Proof.
  intros HI _ w1 w5; subst w1 w5.
  rewrite (Idle_shape w HI), requestDelete_idle.
  cbn [ticks]; repeat (rewrite tick_pending; cbn -[tick]).
  repeat split.
  - apply filter_removes.
  - intros k Hk.
    do 6 (destruct k as [|k];
          [cbn [ticks]; repeat (rewrite tick_pending; cbn -[tick]);
           reflexivity|]).
    lia.
  - intros n; now apply ticks_stopped.
Qed.

Lemma delete_then_five_ticks_witness :
  ~ In 3 (ids (shots (ticks 5 (requestDelete 3 initial)))) /\
  Idle (ticks 5 (requestDelete 3 initial)).
Proof.
  pose proof (delete_then_five_ticks 3 initial) as H.
  assert (HI : Idle initial) by (repeat split).
  assert (Hin : In 3 (ids (shots initial))) by (vm_compute; auto).
  destruct (H HI Hin) as (_ & _ & Ha & Hb & _).
  split; assumption.
Defined.

(** C4: in a Pending state reached by [requestDelete i] and fewer than five
    ticks, over a store whose remaining items are ordered by id, [undo]
    stops the interval, discards the pending record and returns to Idle;
    the new store is the old one with the item inserted, at any place, and
    then sorted by id; the item sits between the smaller and the larger
    ids; when the original store was ordered without duplicates and held
    the item, the original store is back; and one more second changes
    nothing. *)
Theorem undo_before_expiry (i : Z) (w : World) (k : nat) :
  Idle w ->
  sorted_by_id (filter (fun shot => negb (id shot =? i)) (shots w)) ->
  (k < 5)%nat ->
  let wp := ticks k (requestDelete i w) in
  let wu := undo wp in
  pending wp = Some (mkPending i (5 - Z.of_nat k)) /\
  stopped wu /\
  Idle wu /\
  (forall l1 l2, shots wp = l1 ++ l2 -> shots wu = sort (l1 ++ mkShot i :: l2)) /\
  (exists lo hi,
      shots wp = lo ++ hi /\ shots wu = lo ++ mkShot i :: hi /\
      Forall (fun y => id y < i) lo /\ Forall (fun y => i < id y) hi) /\
  sorted_by_id (shots wu) /\
  (sorted_by_id (shots w) -> NoDup (ids (shots w)) -> In i (ids (shots w)) ->
   shots wu = shots w) /\
  tick wu = wu.
Proof.
  intros HI Hs Hk wp wu; subst wp wu.
  rewrite (Idle_shape w HI), requestDelete_idle.
  destruct (ticks_pending k (filter (fun shot => negb (id shot =? i)) (shots w))
              i 5 (nextHandle w) (Pos.succ (nextHandle w)))
    as (h' & n' & E); [lia|].
  rewrite E, undo_pending; simpl.
  split; [reflexivity|].
  split; [now split|].
  split; [repeat split|].
  split; [|split; [|split; [|split]]].
  - intros l1 l2 ->; apply sort_perm_eq.
    transitivity (mkShot i :: l1 ++ l2).
    + symmetry; apply Permutation_cons_append.
    + apply Permutation_middle.
  - rewrite sort_snoc_sorted by exact Hs.
    destruct (insert_position (mkShot i) _ Hs (filter_removes i (shots w)))
      as (lo & hi & E1 & E2 & F1 & F2).
    exists lo, hi; auto.
  - apply sort_sorted.
  - intros Hw Hn Hin; now apply undo_restores_original.
  - reflexivity.
Qed.

Lemma undo_before_expiry_witness :
  shots (undo (ticks 2 (requestDelete 3 initial))) = shots initial /\
  Idle (undo (ticks 2 (requestDelete 3 initial))).
Proof.
  assert (HI : Idle initial) by (repeat split).
  assert (Hs : sorted_by_id
                 (filter (fun shot => negb (id shot =? 3)) (shots initial))).
  { sorted_concrete. }
  assert (Hk : (2 < 5)%nat) by lia.
  destruct (undo_before_expiry 3 initial 2 HI Hs Hk)
    as (_ & _ & Hidle & _ & _ & _ & Hrestore & _).
  split; [|exact Hidle].
  apply Hrestore.
  - sorted_concrete.
  - nodup_concrete.
  - vm_compute; auto.
Defined.

(** What a tick does to a pending record whose interval is running. *)
Lemma tick_decrements (w : World) (p : Pending) :
  timer_inv w -> pending w = Some p ->
  (0 < secondsLeft p - 1 ->
   pending (tick w) = Some (mkPending (pending_id p) (secondsLeft p - 1)) /\
   ticking (tick w)) /\
  (secondsLeft p - 1 <= 0 -> pending (tick w) = None /\ stopped (tick w)).
Proof.
  intros Ht Hp.
  by_shape w Ht; simpl in Hp; [|discriminate].
  injection Hp as <-; simpl.
  rewrite tick_pending.
  destruct (Z.leb_spec k 1) as [L|L]; simpl.
  - split; [intros; lia | intros _; now split].
  - split; [intros _; split; [reflexivity | now exists n] | intros; lia].
Qed.

(** C5: a pending record starts with [secondsLeft = 5]; in every Pending
    state the controller reaches, a tick takes one off [secondsLeft] and
    stays in Pending, with the interval running, when the result is
    positive, and finalizes (interval stopped, record discarded, Idle)
    exactly when the result is 0. *)
Theorem countdown (i : Z) (w0 : World) (ops : list Op) (p : Pending) :
  Idle w0 -> pending (run ops w0) = Some p ->
  let w := run ops w0 in
  pending (requestDelete i w0) = Some (mkPending i 5) /\
  (0 < secondsLeft p - 1 ->
   pending (tick w) = Some (mkPending (pending_id p) (secondsLeft p - 1)) /\
   ticking (tick w)) /\
  (secondsLeft p - 1 = 0 -> pending (tick w) = None /\ stopped (tick w)) /\
  (Idle (tick w) <-> secondsLeft p - 1 = 0).
Proof.
  intros HI Hp w; subst w.
  destruct (run_timer_window ops w0 HI) as [Ht Hw].
  pose proof (Hw p Hp) as Hrange.
  destruct (tick_decrements _ p Ht Hp) as [Hpos Hzero].
  split; [rewrite (Idle_shape w0 HI), requestDelete_idle; reflexivity|].
  split; [exact Hpos|].
  split; [intros E; apply Hzero; lia|].
  split.
  - intros (Hn & _).
    destruct (Z.lt_ge_cases 0 (secondsLeft p - 1)) as [G|G]; [|lia].
    destruct (Hpos G) as [Hs _]; rewrite Hs in Hn; discriminate.
  - intros E; destruct Hzero as [Hn [Hi Hc]]; [lia|]; now repeat split.
Qed.

Lemma countdown_witness :
  pending (tick (run [RequestDelete 3; Tick] initial)) =
  Some (mkPending 3 3).
Proof.
  assert (HI : Idle initial) by (repeat split).
  assert (Hp : pending (run [RequestDelete 3; Tick] initial) =
               Some (mkPending 3 4)) by reflexivity.
  destruct (countdown 3 initial [RequestDelete 3; Tick] (mkPending 3 4) HI Hp)
    as (_ & Hdec & _).
  apply Hdec; simpl; lia.
Defined.

(** The guard as the render of the moment builds it: with a deletion
    pending in that render, the handler returns at once. *)
Lemma current_handler_guard (i : Z) (w : World) (p : Pending) :
  pending w = Some p -> requestDelete i w = w.
Proof.
  intros Hp; unfold requestDelete; rewrite Hp; reflexivity.
Qed.

(** C6 fails on the code.  The guard [if (pending) return] tests the
    [pending] of the render that built the handler, and [ShotItem] gives
    [setTimeout] the handler of the render in which the press started.
    With the eight initial shots: a press on shot 4 starts while nothing is
    pending, so its timer holds the handler of the first render; the long
    press on shot 3 is accepted and [{ id: 3, secondsLeft: 5 }] is pending;
    then the timer of shot 4 runs.  Its guard sees [null], so while the
    controller is Pending the request is accepted: shot 4 leaves the store
    and the pending record is replaced by [{ id: 4, secondsLeft: 5 }].
    Shot 3 is then lost: the undo that is offered brings back shot 4
    only. *)
Lemma request_while_pending_accepted :
  pending initial = None /\
  pending (requestDelete 3 initial) = Some (mkPending 3 5) /\
  ids (shots (requestDelete 3 initial)) = [1; 2; 4; 5; 6; 7; 8] /\
  pending (handleLongPressDelete (pending initial) 4 (requestDelete 3 initial))
  = Some (mkPending 4 5) /\
  ids (shots (handleLongPressDelete (pending initial) 4
                (requestDelete 3 initial))) = [1; 2; 5; 6; 7; 8] /\
  ids (shots (undo (handleLongPressDelete (pending initial) 4
                      (requestDelete 3 initial)))) = [1; 2; 4; 5; 6; 7; 8].
Proof. repeat split. Qed.

(** C9: from a store without duplicate ids and nothing pending, whatever
    sequence of [requestDelete], [undo] and ticks is run, the store has no
    duplicate ids, and while a deletion is pending its id is not in the
    store, so that the re-insertion by [undo] cannot duplicate a key. *)
Theorem store_keys_unique (w0 : World) (ops : list Op) :
  Idle w0 -> NoDup (ids (shots w0)) ->
  NoDup (ids (shots (run ops w0))) /\
  (forall p, pending (run ops w0) = Some p ->
             ~ In (pending_id p) (ids (shots (run ops w0)))) /\
  NoDup (ids (shots (undo (run ops w0)))).
Proof.
  intros HI Hn.
  destruct (run_store ops w0 HI Hn) as [H1 H2].
  repeat split; auto.
  change (undo (run ops w0)) with (step Undo (run ops w0)).
  rewrite <- run_snoc; now apply run_store.
Qed.

Lemma store_keys_unique_witness :
  NoDup (ids (shots (run [RequestDelete 3; Tick; Undo; RequestDelete 3] initial))).
Proof.
  apply (store_keys_unique initial [RequestDelete 3; Tick; Undo; RequestDelete 3]).
  - repeat split.
  - nodup_concrete.
Defined.

(** C10: in every state the controller reaches, a pending record has
    [secondsLeft] between 1 and 5; the tick that would take it to 0
    discards the record instead, so no state shows 0. *)
Theorem secondsLeft_in_window (w0 : World) (ops : list Op) (p : Pending) :
  Idle w0 -> pending (run ops w0) = Some p ->
  1 <= secondsLeft p <= 5 /\
  (secondsLeft p = 1 -> pending (tick (run ops w0)) = None).
Proof.
  intros HI Hp.
  destruct (run_timer_window ops w0 HI) as [Ht Hw].
  split; [now apply Hw|].
  intros H1.
  destruct (tick_decrements _ p Ht Hp) as [_ Hz].
  apply Hz; lia.
Qed.

Lemma secondsLeft_in_window_witness :
  1 <= 1 <= 5 /\
  (1 = 1 -> pending (tick (run [RequestDelete 3; Tick; Tick; Tick; Tick] initial)) = None).
Proof.
  apply (secondsLeft_in_window initial
           [RequestDelete 3; Tick; Tick; Tick; Tick] (mkPending 3 1)).
  - repeat split.
  - reflexivity.
Defined.

End Controller.

(* ------------------------------------------------------------------ *)
(** * Properties of the long-press detector                             *)
(* ------------------------------------------------------------------ *)
Section Detector.
Import ShotItem.

(** ** Time *)

Lemma total_nonneg (dts : list Z) :
  Forall (fun dt => 0 <= dt) dts -> 0 <= total dts.
Proof. induction 1; simpl; lia. Qed.

Lemma elapse_cons (dt : Z) (dts : list Z) (d : Detector) :
  elapse (dt :: dts) d = elapse dts (advance dt d).
Proof. reflexivity. Qed.

(** ** Timers that can no longer fire *)

Lemma armed_filter (f : handle * Z -> bool) (l : list (handle * Z)) (h : handle) :
  In h (map fst (filter f l)) -> In h (map fst l).
Proof.
  rewrite !in_map_iff; intros (t & Ht & Hin).
  apply filter_In in Hin as [Hin _]; eauto.
Qed.

Lemma spent_event (e : Event) (d : Detector) (h : handle) :
  spent h d ->
  spent h (handleEvent e d) /\ emitted h (handleEvent e d) = emitted h d.
Proof.
  intros [Ha Hn]; destruct e as [| |dt]; simpl.
  - split; [split|reflexivity]; unfold armed; simpl.
    + rewrite map_app, in_app_iff; simpl.
      intros [H|[H|[]]]; [now apply Ha | lia].
    + lia.
  - unfold endPress; destruct (timerRef d) as [k|]; [|now split].
    split; [split|reflexivity]; unfold armed; simpl; auto.
    intros H; apply Ha; eapply armed_filter; eauto.
  - split; [split|]; unfold armed, emitted; simpl; auto.
    + intros H; apply Ha; eapply armed_filter; eauto.
    + rewrite count_occ_app.
      replace (count_occ Pos.eq_dec
                 (map fst (filter (is_due (clock d + dt)) (timeouts d))) h)
        with 0%nat; [lia|].
      symmetry; apply count_occ_not_In.
      intros H; apply Ha; eapply armed_filter; eauto.
Qed.

Lemma spent_run (evs : list Event) (d : Detector) (h : handle) :
  spent h d -> spent h (run evs d) /\ emitted h (run evs d) = emitted h d.
Proof.
  revert d; induction evs as [|e evs IH]; intros d Hs; [now split|].
  destruct (spent_event e d h Hs) as [Hs' He].
  change (run (e :: evs) d) with (run evs (handleEvent e d)).
  destruct (IH _ Hs') as [Hs'' He']; split; [exact Hs''|].
  now rewrite He'.
Qed.

Lemma elapse_run (dts : list Z) (d : Detector) :
  elapse dts d = run (map Elapse dts) d.
Proof.
  revert d; induction dts as [|dt dts IH]; intros d; [reflexivity|].
  rewrite elapse_cons, IH; reflexivity.
Qed.

Lemma cleared_not_armed (h : handle) (d : Detector) :
  ~ In h (armed (clearTimeout h d)).
Proof.
  unfold armed; simpl; rewrite in_map_iff; intros (t & Ht & Hin).
  apply filter_In in Hin as [_ Hf].
  rewrite Ht, Pos.eqb_refl in Hf; discriminate.
Qed.

Lemma wf_not_emitted (d : Detector) : wf d -> emitted (nextTimer d) d = 0%nat.
Proof.
  intros [_ Hl]; unfold emitted; apply count_occ_not_In.
  rewrite Forall_forall in Hl; intros Hin; specialize (Hl _ Hin); lia.
Qed.

Lemma wf_not_armed (d : Detector) : wf d -> ~ In (nextTimer d) (armed d).
Proof.
  intros [Ha _]; rewrite Forall_forall in Ha.
  intros Hin; specialize (Ha _ Hin); lia.
Qed.

(** ** A timer waiting for its due time *)

Lemma startPress_due_at (d : Detector) :
  wf d -> due_at (nextTimer d) (clock d + T) (startPress d).
Proof.
  intros Hwf t; simpl; rewrite in_app_iff; simpl.
  intros [Hin|[<-|[]]] Hh; [|reflexivity].
  exfalso; apply (wf_not_armed d Hwf).
  unfold armed; rewrite <- Hh; now apply in_map.
Qed.

Lemma count_filter_kept (f : handle * Z -> bool) (h : handle)
    (l : list (handle * Z)) :
  (forall t, In t l -> fst t = h -> f t = true) ->
  count_occ Pos.eq_dec (map fst (filter f l)) h =
  count_occ Pos.eq_dec (map fst l) h.
Proof.
  induction l as [|t l IH]; simpl; intros H; [reflexivity|].
  destruct (Pos.eq_dec (fst t) h) as [E|E].
  - rewrite (H t (or_introl eq_refl) E); simpl.
    destruct (Pos.eq_dec (fst t) h); [|contradiction].
    f_equal; apply IH; intros; apply H; auto.
  - destruct (f t); simpl.
    + destruct (Pos.eq_dec (fst t) h); [contradiction|].
      apply IH; intros; apply H; auto.
    + apply IH; intros; apply H; auto.
Qed.

Lemma filter_none (f : handle * Z -> bool) (h : handle)
    (l : list (handle * Z)) :
  (forall t, In t l -> fst t = h -> f t = false) ->
  ~ In h (map fst (filter f l)).
Proof.
  intros H; rewrite in_map_iff; intros (t & Ht & Hin).
  apply filter_In in Hin as [Hin Hf].
  rewrite (H t Hin Ht) in Hf; discriminate.
Qed.

Lemma advance_waits (h : handle) (due dt : Z) (d : Detector) :
  due_at h due d -> clock d + dt < due ->
  due_at h due (advance dt d) /\
  emitted h (advance dt d) = emitted h d /\
  count_occ Pos.eq_dec (armed (advance dt d)) h =
  count_occ Pos.eq_dec (armed d) h.
Proof.
  intros Hd Hlt.
  assert (Hnd : forall t, In t (timeouts d) -> fst t = h ->
                          is_due (clock d + dt) t = false).
  { intros t Hin Hh; unfold is_due; rewrite (Hd t Hin Hh).
    apply Z.leb_gt; exact Hlt. }
  split; [|split].
  - intros t; simpl; intros Hin; apply filter_In in Hin as [Hin _]; auto.
  - unfold emitted; simpl; rewrite count_occ_app.
    rewrite (proj1 (count_occ_not_In Pos.eq_dec _ h)
               (filter_none _ h _ Hnd)); lia.
  - unfold armed; simpl; apply count_filter_kept.
    intros t Hin Hh; now rewrite (Hnd t Hin Hh).
Qed.

Lemma advance_fires (h : handle) (due dt : Z) (d : Detector) :
  due_at h due d -> due <= clock d + dt ->
  ~ In h (armed (advance dt d)) /\
  emitted h (advance dt d) =
  (emitted h d + count_occ Pos.eq_dec (armed d) h)%nat.
Proof.
  intros Hd Hle.
  assert (Hdue : forall t, In t (timeouts d) -> fst t = h ->
                           is_due (clock d + dt) t = true).
  { intros t Hin Hh; unfold is_due; rewrite (Hd t Hin Hh).
    apply Z.leb_le; exact Hle. }
  split.
  - unfold armed; simpl; apply filter_none.
    intros t Hin Hh; now rewrite (Hdue t Hin Hh).
  - unfold emitted, armed; simpl; rewrite count_occ_app.
    now rewrite count_filter_kept.
Qed.

Lemma nextTimer_elapse (dts : list Z) (d : Detector) :
  nextTimer (elapse dts d) = nextTimer d /\
  timerRef (elapse dts d) = timerRef d.
Proof.
  revert d; induction dts as [|dt dts IH]; intros d; [now split|].
  rewrite elapse_cons; destruct (IH (advance dt d)) as [-> ->]; now split.
Qed.

Lemma elapse_waits (h : handle) (due : Z) (dts : list Z) (d : Detector) :
  Forall (fun dt => 0 <= dt) dts ->
  due_at h due d -> clock d + total dts < due ->
  emitted h (elapse dts d) = emitted h d.
Proof.
  intros Hpos; revert d; induction Hpos as [|dt dts Hdt Hpos IH];
    intros d Hd Hlt; [reflexivity|].
  simpl in Hlt; pose proof (total_nonneg dts Hpos).
  destruct (advance_waits h due dt d Hd) as (Hd' & He & _); [lia|].
  rewrite elapse_cons, IH; auto.
  simpl; lia.
Qed.

Lemma elapse_fires (h : handle) (due : Z) (dts : list Z) (d : Detector) :
  Forall (fun dt => 0 <= dt) dts ->
  due_at h due d -> (h < nextTimer d)%positive ->
  count_occ Pos.eq_dec (armed d) h = 1%nat -> emitted h d = 0%nat ->
  clock d < due -> due <= clock d + total dts ->
  spent h (elapse dts d) /\ emitted h (elapse dts d) = 1%nat.
Proof.
  intros Hpos; revert d; induction Hpos as [|dt dts Hdt Hpos IH];
    intros d Hd Hn Hc He Hlt Hle; simpl in Hle; [lia|].
  rewrite elapse_cons.
  destruct (Z.lt_ge_cases (clock d + dt) due) as [W|F].
  - destruct (advance_waits h due dt d Hd W) as (Hd' & He' & Hc').
    apply IH; auto; try congruence; simpl; lia.
  - destruct (advance_fires h due dt d Hd F) as (Ha & He').
    assert (Hs : spent h (advance dt d)) by (split; [exact Ha | exact Hn]).
    rewrite elapse_run.
    destruct (spent_run (map Elapse dts) _ h Hs) as [Hs' ->].
    split; [exact Hs' | rewrite He', He, Hc; reflexivity].
Qed.

(** ** A detector with a single armed timer *)

Lemma elapse_none (dts : list Z) (d : Detector) :
  timeouts d = [] ->
  timeouts (elapse dts d) = [] /\ longPresses (elapse dts d) = longPresses d.
Proof.
  revert d; induction dts as [|dt dts IH]; intros d Ht; [now split|].
  rewrite elapse_cons.
  destruct (IH (advance dt d)) as [H1 H2]; [simpl; now rewrite Ht|].
  split; [exact H1|].
  rewrite H2; simpl; rewrite Ht; simpl; apply app_nil_r.
Qed.

Lemma elapse_single_waits (h : handle) (due : Z) (dts : list Z) (d : Detector) :
  Forall (fun dt => 0 <= dt) dts ->
  timeouts d = [(h, due)] -> clock d + total dts < due ->
  timeouts (elapse dts d) = [(h, due)] /\
  longPresses (elapse dts d) = longPresses d.
Proof.
  intros Hpos; revert d; induction Hpos as [|dt dts Hdt Hpos IH];
    intros d Ht Hlt; [now split|].
  simpl in Hlt; pose proof (total_nonneg dts Hpos).
  assert (Hnd : is_due (clock d + dt) (h, due) = false)
    by (apply Z.leb_gt; simpl; lia).
  rewrite elapse_cons.
  destruct (IH (advance dt d)) as [H1 H2].
  - simpl; rewrite Ht; simpl; now rewrite Hnd.
  - simpl; lia.
  - split; [exact H1|].
    rewrite H2; simpl; rewrite Ht; simpl; rewrite Hnd; apply app_nil_r.
Qed.

Lemma elapse_single_fires (h : handle) (due : Z) (dts : list Z) (d : Detector) :
  Forall (fun dt => 0 <= dt) dts ->
  timeouts d = [(h, due)] -> clock d < due -> due <= clock d + total dts ->
  timeouts (elapse dts d) = [] /\
  longPresses (elapse dts d) = longPresses d ++ [h].
Proof.
  intros Hpos; revert d; induction Hpos as [|dt dts Hdt Hpos IH];
    intros d Ht Hlt Hle; simpl in Hle; [lia|].
  rewrite elapse_cons.
  destruct (Z.lt_ge_cases (clock d + dt) due) as [W|F].
  - assert (Hnd : is_due (clock d + dt) (h, due) = false)
      by (apply Z.leb_gt; simpl; lia).
    destruct (IH (advance dt d)) as [H1 H2].
    + simpl; rewrite Ht; simpl; now rewrite Hnd.
    + exact W.
    + simpl; lia.
    + split; [exact H1|].
      rewrite H2; simpl; rewrite Ht; simpl; rewrite Hnd, app_nil_r; reflexivity.
  - assert (Hdue : is_due (clock d + dt) (h, due) = true)
      by (apply Z.leb_le; simpl; lia).
    destruct (elapse_none dts (advance dt d)) as [H1 H2].
    + simpl; rewrite Ht; simpl; now rewrite Hdue.
    + split; [exact H1|].
      rewrite H2; simpl; rewrite Ht; simpl; now rewrite Hdue.
Qed.

(** ** The claims about the detector *)

(** C2 fails on the code: [startPress] overwrites [timerRef.current]
    without clearing the timer it held.  On a fresh instance, two starts
    with no end in between leave two timers armed; the one release that
    follows clears only the second, and the first still calls
    [onLongPress] when its 3000 ms are over. *)
Lemma startPress_twice_two_timers :
  armed (startPress (startPress (fresh 0))) = [1%positive; 2%positive] /\
  timerRef (startPress (startPress (fresh 0))) = Some 2%positive /\
  armed (endPress (startPress (startPress (fresh 0)))) = [1%positive] /\
  longPresses (advance 3000 (endPress (startPress (startPress (fresh 0))))) =
  [1%positive].
Proof. repeat split. Qed.

(** C7: a press that starts and is ended (or cancelled) before 3000 ms
    have passed never emits a long-press event, whatever happens to the
    detector afterwards; and when no other timer of the instance was
    armed, no event at all is emitted however long one waits. *)
Theorem released_before_threshold (d : Detector) (dts : list Z)
    (evs : list Event) :
  wf d -> Forall (fun dt => 0 <= dt) dts -> total dts < T ->
  let h := nextTimer d in
  let d' := endPress (elapse dts (startPress d)) in
  emitted h d' = 0%nat /\
  emitted h (run evs d') = 0%nat /\
  (timeouts d = [] ->
   forall dts', longPresses (elapse dts' d') = longPresses d).
Proof.
  intros Hwf Hpos Hlt h d'.
  assert (Hd : due_at h (clock d + T) (startPress d))
    by now apply startPress_due_at.
  assert (He : emitted h (elapse dts (startPress d)) = 0%nat).
  { rewrite (elapse_waits h (clock d + T)); auto.
    - exact (wf_not_emitted d Hwf).
    - simpl; lia. }
  destruct (nextTimer_elapse dts (startPress d)) as [Hn Hr].
  assert (Hd' : d' = clearTimeout h (elapse dts (startPress d))).
  { subst d'; unfold endPress; rewrite Hr; reflexivity. }
  assert (Hs : spent h d').
  { rewrite Hd'; split; [apply cleared_not_armed|].
    simpl; rewrite Hn; simpl; subst h; lia. }
  assert (He' : emitted h d' = 0%nat) by (rewrite Hd'; exact He).
  split; [exact He'|].
  split; [destruct (spent_run evs d' h Hs) as [_ ->]; exact He'|].
  intros Hq dts'.
  destruct (elapse_single_waits h (clock d + T) dts (startPress d))
    as [H1 H2]; auto.
  { simpl; now rewrite Hq. }
  { simpl; lia. }
  destruct (elapse_none dts' d') as [_ ->].
  - rewrite Hd'; simpl; rewrite H1; simpl; now rewrite Pos.eqb_refl.
  - rewrite Hd'; simpl; exact H2.
Qed.

Lemma released_before_threshold_witness :
  emitted 1%positive
    (run [Elapse 5000; PressStart; Elapse 1000; PressEnd; Elapse 9000]
       (endPress (elapse [1000; 1999] (startPress (fresh 0))))) = 0%nat.
Proof.
  assert (Hwf : wf (fresh 0)) by (split; constructor).
  assert (Hpos : Forall (fun dt => 0 <= dt) [1000; 1999])
    by (repeat constructor; lia).
  assert (Hlt : total [1000; 1999] < T) by (vm_compute; reflexivity).
  destruct (released_before_threshold (fresh 0) [1000; 1999]
              [Elapse 5000; PressStart; Elapse 1000; PressEnd; Elapse 9000]
              Hwf Hpos Hlt) as (_ & H & _).
  exact H.
Defined.

(** C8: a press that starts and is not ended or cancelled for at least
    3000 ms emits its long-press event exactly once, and no later press,
    release or lapse of time makes its timer emit again; when no other
    timer of the instance was armed, that event is the only one emitted
    however long one waits. *)
Theorem held_past_threshold (d : Detector) (dts : list Z)
    (evs : list Event) :
  wf d -> Forall (fun dt => 0 <= dt) dts -> T <= total dts ->
  let h := nextTimer d in
  let d' := elapse dts (startPress d) in
  emitted h d' = 1%nat /\
  emitted h (run evs d') = 1%nat /\
  (timeouts d = [] ->
   forall dts', longPresses (elapse dts' d') = longPresses d ++ [h]).
Proof.
  intros Hwf Hpos Hle h d'.
  destruct (elapse_fires h (clock d + T) dts (startPress d)) as [Hs He]; auto.
  - now apply startPress_due_at.
  - simpl; subst h; lia.
  - unfold armed; simpl; rewrite map_app, count_occ_app; simpl.
    destruct (Pos.eq_dec (nextTimer d) h); [|contradiction].
    change (map fst (timeouts d)) with (armed d).
    rewrite (proj1 (count_occ_not_In Pos.eq_dec _ h) (wf_not_armed d Hwf)).
    reflexivity.
  - exact (wf_not_emitted d Hwf).
  - simpl; unfold T; lia.
  - simpl; lia.
  - split; [exact He|].
    split; [destruct (spent_run evs d' h Hs) as [_ ->]; exact He|].
    intros Hq dts'.
    destruct (elapse_single_fires h (clock d + T) dts (startPress d))
      as [H1 H2]; auto.
    { simpl; now rewrite Hq. }
    { simpl; unfold T; lia. }
    { simpl; lia. }
    destruct (elapse_none dts' d' H1) as [_ ->]; exact H2.
Qed.

Lemma held_past_threshold_witness :
  emitted 1%positive
    (run [Elapse 4000; PressEnd; PressStart; Elapse 100; PressEnd]
       (elapse [2000; 1000] (startPress (fresh 0)))) = 1%nat.
Proof.
  assert (Hwf : wf (fresh 0)) by (split; constructor).
  assert (Hpos : Forall (fun dt => 0 <= dt) [2000; 1000])
    by (repeat constructor; lia).
  assert (Hle : T <= total [2000; 1000]) by (vm_compute; discriminate).
  destruct (held_past_threshold (fresh 0) [2000; 1000]
              [Elapse 4000; PressEnd; PressStart; Elapse 100; PressEnd]
              Hwf Hpos Hle) as (_ & H & _).
  exact H.
Defined.

End Detector.

(* ------------------------------------------------------------------ *)
(** * Further properties of the pending-deletion controller             *)
(* ------------------------------------------------------------------ *)
Section ControllerCalls.
Import HistoryScreen.

Ltac shape w Ht :=
  let h := fresh "h" in
  destruct w as [?s [[?i ?k]|] ?iv ?c ?n];
  unfold timer_inv, ticking, stopped in Ht; simpl in Ht;
  [ destruct Ht as (h & -> & ->) | destruct Ht as (-> & ->) ].

Ltac nodup_initial :=
  simpl;
  repeat (apply NoDup_cons; [simpl; intuition discriminate|]);
  apply NoDup_nil.

(** ** A call through the handler of any render *)

Lemma handler_unguarded (i : Z) (w : World) :
  timer_inv w ->
  handleLongPressDelete None i w =
  mkWorld (filter (fun shot => negb (id shot =? i)) (shots w))
          (Some (mkPending i 5)) [nextHandle w] (Some (nextHandle w))
          (Pos.succ (nextHandle w)).
Proof.
  intros Ht; shape w Ht; simpl.
  - unfold handleLongPressDelete, setPending, run_cleanup, run_effect; simpl.
    rewrite Pos.eqb_refl; reflexivity.
  - reflexivity.
Qed.

Lemma play_snoc (acts : list Action) (a : Action) (w : World) :
  play (acts ++ [a]) w = act a (play acts w).
Proof. unfold play; now rewrite fold_left_app. Qed.

Lemma act_timer_window (a : Action) (w : World) :
  timer_inv w /\ window_inv w ->
  timer_inv (act a w) /\ window_inv (act a w).
Proof.
  intros [Ht Hw]; destruct a as [[r|] i| |].
  - simpl; now split.
  - cbn [act]; rewrite handler_unguarded by exact Ht; split.
    + now exists (nextHandle w).
    + intros p [= <-]; simpl; lia.
  - exact (step_timer_window Undo w (conj Ht Hw)).
  - exact (step_timer_window Tick w (conj Ht Hw)).
Qed.

Lemma play_timer_window (acts : list Action) (w0 : World) :
  Idle w0 -> timer_inv (play acts w0) /\ window_inv (play acts w0).
Proof.
  intros H0; induction acts as [|a acts IH] using rev_ind.
  - now apply Idle_inv.
  - rewrite play_snoc; now apply act_timer_window.
Qed.

Lemma act_store (a : Action) (w : World) :
  timer_inv w -> store_inv w -> store_inv (act a w).
Proof.
  intros Ht Hs; destruct a as [[r|] i| |].
  - exact Hs.
  - cbn [act]; rewrite handler_unguarded by exact Ht; destruct Hs as [Hn _].
    split; simpl.
    + now apply filter_NoDup.
    + intros p [= <-]; simpl; apply filter_removes.
  - exact (step_store Undo w Ht Hs).
  - exact (step_store Tick w Ht Hs).
Qed.

Lemma play_store (acts : list Action) (w0 : World) :
  Idle w0 -> NoDup (ids (shots w0)) -> store_inv (play acts w0).
Proof.
  intros H0 Hn; induction acts as [|a acts IH] using rev_ind.
  - split; [exact Hn|].
    destruct H0 as (Hp & _); simpl; rewrite Hp; discriminate.
  - rewrite play_snoc; apply act_store; auto.
    now apply play_timer_window.
Qed.

Lemma shots_ticks (n : nat) (w : World) :
  timer_inv w /\ window_inv w -> shots (ticks n w) = shots w.
Proof.
  revert w; induction n as [|n IH]; intros w H; [reflexivity|].
  cbn [ticks]; rewrite IH.
  - apply shots_tick, H.
  - exact (step_timer_window Tick w H).
Qed.

Lemma ids_sort_snoc (s : list Shot) (i j : Z) :
  In j (ids (sort (s ++ [mkShot i]))) -> In j (ids s) \/ j = i.
Proof.
  intros H.
  assert (P : Permutation (ids (sort (s ++ [mkShot i]))) (ids (s ++ [mkShot i])))
    by apply Permutation_map, sort_perm.
  apply (Permutation_in _ P) in H.
  unfold ids in H; rewrite map_app, in_app_iff in H; simpl in H.
  destruct H as [H|[H|[]]]; auto.
Qed.

(** ** Properties *)

(** X1: whatever long presses (through the handler of any render), undo
    clicks and seconds follow the first render, the countdown interval is
    armed exactly while a deletion is pending, and never more than one is
    armed: no interval outlives its pending record. *)
Theorem one_interval_while_pending (w0 : World) (acts : list Action) :
  Idle w0 ->
  let w := play acts w0 in
  (pending w = None -> intervals w = [] /\ cleanup w = None) /\
  (forall p, pending w = Some p ->
             exists h, intervals w = [h] /\ cleanup w = Some h) /\
  (List.length (intervals w) <= 1)%nat.
Proof.
  intros H0 w; subst w.
  destruct (play_timer_window acts w0 H0) as [Ht _].
  revert Ht; generalize (play acts w0); intros w Ht.
  shape w Ht; simpl.
  - split; [discriminate|]. split; [|lia]. intros p _; now exists h.
  - split; [now split|]. split; [discriminate | lia].
Qed.

Lemma one_interval_while_pending_witness :
  (List.length (intervals (play [LongPress None 3; Second; LongPress None 4;
                                 ClickUndo; LongPress None 5] initial)) <= 1)%nat.
Proof.
  assert (HI : Idle initial) by (repeat split).
  destruct (one_interval_while_pending initial
              [LongPress None 3; Second; LongPress None 4; ClickUndo;
               LongPress None 5] HI) as (_ & _ & H).
  exact H.
Defined.

(** X2: from a store without duplicate ids, the same holds for the store
    after any such calls, the pending id is never in the store, and the
    seconds left stay between 1 and 5, also when a long press arrives
    through the handler of an earlier render. *)
Theorem calls_keep_store_and_window (w0 : World) (acts : list Action) :
  Idle w0 -> NoDup (ids (shots w0)) ->
  let w := play acts w0 in
  NoDup (ids (shots w)) /\
  (forall p, pending w = Some p ->
             ~ In (pending_id p) (ids (shots w)) /\ 1 <= secondsLeft p <= 5).
Proof.
  intros H0 Hn w; subst w.
  destruct (play_store acts w0 H0 Hn) as [H1 H2].
  destruct (play_timer_window acts w0 H0) as [_ Hw].
  split; [exact H1|]. intros p Hp; split; [now apply H2 | now apply Hw].
Qed.

Lemma calls_keep_store_and_window_witness :
  NoDup (ids (shots (play [LongPress None 3; LongPress None 4; ClickUndo;
                           LongPress None 4] initial))).
Proof.
  assert (HI : Idle initial) by (repeat split).
  assert (Hn : NoDup (ids (shots initial))) by nodup_initial.
  destruct (calls_keep_store_and_window initial
              [LongPress None 3; LongPress None 4; ClickUndo; LongPress None 4]
              HI Hn) as [H _].
  exact H.
Defined.

(** X3: a long press on another shot that arrives, while a deletion is
    pending, through a handler built when nothing was pending, is not
    stopped by the guard: it removes its shot and replaces the pending
    record, with a new interval.  The shot that was pending is then out of
    reach: neither the undo that is now offered nor any lapse of time puts
    it back into the store. *)
Theorem earlier_handler_replaces_pending (w0 : World) (acts : list Action)
    (p : Pending) (i : Z) :
  Idle w0 -> NoDup (ids (shots w0)) ->
  pending (play acts w0) = Some p -> pending_id p <> i ->
  let w := play acts w0 in
  let w' := handleLongPressDelete None i w in
  pending w' = Some (mkPending i 5) /\
  ticking w' /\
  shots w' = filter (fun shot => negb (id shot =? i)) (shots w) /\
  ~ In (pending_id p) (ids (shots w')) /\
  ~ In (pending_id p) (ids (shots (undo w'))) /\
  (forall n, ~ In (pending_id p) (ids (shots (ticks n w')))).
Proof.
  intros H0 Hn Hp Hne w w'.
  destruct (play_store acts w0 H0 Hn) as [_ Habs].
  destruct (play_timer_window acts w0 H0) as [Ht Hw].
  specialize (Habs p Hp). fold w in Habs, Ht, Hw.
  assert (Hinv : timer_inv w' /\ window_inv w')
    by exact (act_timer_window (LongPress None i) w (conj Ht Hw)).
  assert (Hout : ~ In (pending_id p) (ids (shots w'))).
  { subst w'; rewrite handler_unguarded by exact Ht; simpl.
    intros Hin; apply Habs; eapply filter_ids_incl; eauto. }
  assert (E : w' = mkWorld (filter (fun shot => negb (id shot =? i)) (shots w))
                (Some (mkPending i 5)) [nextHandle w] (Some (nextHandle w))
                (Pos.succ (nextHandle w)))
    by (subst w'; now apply handler_unguarded).
  split; [rewrite E; reflexivity|].
  split; [rewrite E; now exists (nextHandle w)|].
  split; [rewrite E; reflexivity|].
  split; [exact Hout|].
  split.
  - rewrite E, undo_pending; simpl; intros Hin.
    apply ids_sort_snoc in Hin as [Hin|Hin]; [|contradiction].
    apply Habs; eapply filter_ids_incl; eauto.
  - intros n; now rewrite shots_ticks.
Qed.

Lemma earlier_handler_replaces_pending_witness :
  ~ In 3 (ids (shots (undo (handleLongPressDelete None 4
                              (play [LongPress None 3; Second] initial))))).
Proof.
  assert (HI : Idle initial) by (repeat split).
  assert (Hn : NoDup (ids (shots initial))) by nodup_initial.
  assert (Hp : pending (play [LongPress None 3; Second] initial) =
               Some (mkPending 3 4)) by reflexivity.
  assert (Hne : pending_id (mkPending 3 4) <> 4) by (simpl; lia).
  destruct (earlier_handler_replaces_pending initial
              [LongPress None 3; Second] (mkPending 3 4) 4 HI Hn Hp Hne)
    as (_ & _ & _ & _ & H & _).
  exact H.
Defined.

(** X4: the guard of a handler reads the [pending] of its own render.  A
    long press that starts while a deletion has three seconds or fewer
    left completes, three ticks later, when the controller is Idle again,
    and is still dropped: the store keeps the shot.  The handler of the
    render of that moment would have accepted the same request. *)
Theorem press_begun_late_is_dropped (w0 : World) (acts : list Action)
    (p : Pending) (i : Z) :
  Idle w0 -> pending (play acts w0) = Some p -> secondsLeft p <= 3 ->
  let w := play acts w0 in
  Idle (ticks 3 w) /\
  handleLongPressDelete (pending w) i (ticks 3 w) = ticks 3 w /\
  pending (requestDelete i (ticks 3 w)) = Some (mkPending i 5).
Proof.
  intros H0 Hp Hle w.
  destruct (play_timer_window acts w0 H0) as [Ht Hw].
  fold w in Hp, Ht, Hw. pose proof (Hw p Hp) as Hr.
  assert (HI : Idle (ticks 3 w)).
  { clearbody w; shape w Ht; [|discriminate].
    injection Hp as <-; simpl in Hr, Hle.
    assert (Hk : k = 1 \/ k = 2 \/ k = 3) by lia.
    destruct Hk as [ -> | [ -> | -> ] ]; cbn [ticks];
      repeat (rewrite tick_pending; cbn -[tick]);
      rewrite ?tick_stopped by reflexivity; repeat split. }
  split; [exact HI|].
  split; [rewrite Hp; reflexivity|].
  rewrite (Idle_shape _ HI), requestDelete_idle; reflexivity.
Qed.

Lemma press_begun_late_is_dropped_witness :
  handleLongPressDelete
    (pending (play [LongPress None 3; Second; Second] initial)) 4
    (ticks 3 (play [LongPress None 3; Second; Second] initial)) =
  ticks 3 (play [LongPress None 3; Second; Second] initial).
Proof.
  assert (HI : Idle initial) by (repeat split).
  assert (Hp : pending (play [LongPress None 3; Second; Second] initial) =
               Some (mkPending 3 3)) by reflexivity.
  assert (Hle : secondsLeft (mkPending 3 3) <= 3) by (simpl; lia).
  destruct (press_begun_late_is_dropped initial
              [LongPress None 3; Second; Second] (mkPending 3 3) 4 HI Hp Hle)
    as (_ & H & _).
  exact H.
Defined.

Lemma requested_snoc (acts : list Action) (a : Action) :
  requested (acts ++ [a]) = requested acts ++ requested [a].
Proof. unfold requested; apply flat_map_app. Qed.

Lemma act_provenance (base req : list Z) (a : Action) (w : World) :
  timer_inv w ->
  (forall j, In j (ids (shots w)) -> In j base \/ In j req) ->
  (forall p, pending w = Some p -> In (pending_id p) req) ->
  (forall j, In j (ids (shots (act a w))) ->
             In j base \/ In j (req ++ requested [a])) /\
  (forall p, pending (act a w) = Some p ->
             In (pending_id p) (req ++ requested [a])).
Proof.
  intros Ht Hs Hp.
  assert (Hs' : forall j, In j (ids (shots w)) ->
                          In j base \/ In j (req ++ requested [a])).
  { intros j Hj; destruct (Hs j Hj); [now left|right].
    apply in_or_app; now left. }
  assert (Hp' : forall p, pending w = Some p ->
                          In (pending_id p) (req ++ requested [a])).
  { intros p E; apply in_or_app; left; now apply Hp. }
  destruct a as [[r|] i| |].
  - now split.
  - cbn [act]; rewrite handler_unguarded by exact Ht; simpl; split.
    + intros j Hj; apply Hs'; eapply filter_ids_incl; eauto.
    + intros p [= <-]; simpl; apply in_or_app; right; now left.
  - clear Hs Hp; shape w Ht; cbn [act].
    + rewrite undo_pending; simpl in *; split; [|discriminate].
      intros j Hj; apply ids_sort_snoc in Hj as [Hj| ->]; [now apply Hs'|].
      right; exact (Hp' _ eq_refl).
    + now split.
  - clear Hs Hp; shape w Ht; cbn [act].
    + rewrite tick_pending; destruct (k <=? 1); simpl in *;
        (split; [exact Hs'|]); [discriminate|].
      intros p [= <-]; exact (Hp' _ eq_refl).
    + now split.
Qed.

(** X5: the controller never makes up an id.  Whatever calls are made,
    every id in the store was in the store at the start or was named by a
    long press, and the pending id was named by a long press. *)
Theorem store_ids_have_an_origin (w0 : World) (acts : list Action) :
  Idle w0 ->
  (forall j, In j (ids (shots (play acts w0))) ->
             In j (ids (shots w0)) \/ In j (requested acts)) /\
  (forall p, pending (play acts w0) = Some p ->
             In (pending_id p) (requested acts)).
Proof.
  intros H0; induction acts as [|a acts IH] using rev_ind.
  - split; [intros j Hj; now left|].
    destruct H0 as (Hp & _); simpl; rewrite Hp; discriminate.
  - rewrite play_snoc, requested_snoc.
    destruct IH as [IH1 IH2].
    apply act_provenance; auto.
    now apply play_timer_window.
Qed.

Lemma store_ids_have_an_origin_witness :
  In 99 (ids (shots initial)) \/
  In 99 (requested [LongPress None 99; ClickUndo]).
Proof.
  assert (HI : Idle initial) by (repeat split).
  destruct (store_ids_have_an_origin initial [LongPress None 99; ClickUndo] HI)
    as [H _].
  apply H; vm_compute; auto 10.
Defined.

(** X6: accepted while Idle, [requestDelete i] removes shot [i] and no
    other: every other id is in the store after the call exactly if it was
    before, [i] is not, and when ids are unique and [i] was present the
    store is one shot shorter. *)
Theorem requestDelete_removes_only_that_shot (i : Z) (w : World) :
  Idle w ->
  (forall j, j <> i ->
     (In j (ids (shots (requestDelete i w))) <-> In j (ids (shots w)))) /\
  ~ In i (ids (shots (requestDelete i w))) /\
  (NoDup (ids (shots w)) -> In i (ids (shots w)) ->
   S (List.length (shots (requestDelete i w))) = List.length (shots w)).
Proof.
  intros HI; rewrite (Idle_shape w HI), requestDelete_idle; simpl.
  split; [|split].
  - intros j Hj; split; [apply filter_ids_incl|].
    unfold ids; rewrite !in_map_iff; intros (x & Hx & Hin).
    exists x; split; [exact Hx|].
    apply filter_In; split; [exact Hin|].
    apply negb_true_iff, Z.eqb_neq; congruence.
  - apply filter_removes.
  - intros Hn Hin.
    apply (Permutation_length (filter_reinsert_perm i (shots w) Hn Hin)).
Qed.

Lemma requestDelete_removes_only_that_shot_witness :
  ~ In 3 (ids (shots (requestDelete 3 initial))).
Proof.
  assert (HI : Idle initial) by (repeat split).
  destruct (requestDelete_removes_only_that_shot 3 initial HI) as (_ & H & _).
  exact H.
Defined.

Lemma act_sorted (a : Action) (w : World) :
  timer_inv w -> sorted_by_id (shots w) -> sorted_by_id (shots (act a w)).
Proof.
  intros Ht Hs; destruct a as [[r|] i| |].
  - exact Hs.
  - cbn [act]; rewrite handler_unguarded by exact Ht; simpl.
    now apply filter_sorted.
  - shape w Ht; cbn [act]; [|exact Hs].
    rewrite undo_pending; simpl; apply sort_sorted.
  - cbn [act]; now rewrite shots_tick.
Qed.

(** X7: a store that is ordered by id at the start is ordered by id after
    any calls: removal keeps the order and undo sorts. *)
Theorem store_stays_sorted (w0 : World) (acts : list Action) :
  Idle w0 -> sorted_by_id (shots w0) ->
  sorted_by_id (shots (play acts w0)).
Proof.
  intros H0 Hs; induction acts as [|a acts IH] using rev_ind; [exact Hs|].
  rewrite play_snoc; apply act_sorted; auto.
  now apply play_timer_window.
Qed.

Lemma store_stays_sorted_witness :
  sorted_by_id
    (shots (play [LongPress None 5; Second; ClickUndo; LongPress None 2]
              initial)).
Proof.
  apply (store_stays_sorted initial
           [LongPress None 5; Second; ClickUndo; LongPress None 2]).
  - repeat split.
  - unfold sorted_by_id; simpl.
    repeat (first [ apply SSorted_nil | apply SSorted_cons
                  | apply Forall_nil | apply Forall_cons ]); lia.
Defined.

End ControllerCalls.

(* ------------------------------------------------------------------ *)
(** * Further properties of the long-press detector                     *)
(* ------------------------------------------------------------------ *)
Section DetectorSessions.
Import ShotItem.

Lemma filter_twice {A : Type} (f : A -> bool) (l : list A) :
  filter f (filter f l) = filter f l.
Proof.
  induction l as [|x l IH]; simpl; [reflexivity|].
  destruct (f x) eqn:E; simpl; [rewrite E; f_equal|]; exact IH.
Qed.

Lemma filter_all {A : Type} (f : A -> bool) (l : list A) :
  (forall x, In x l -> f x = true) -> filter f l = l.
Proof.
  induction l as [|x l IH]; simpl; intros H; [reflexivity|].
  rewrite (H x (or_introl eq_refl)); f_equal; apply IH; auto.
Qed.

Lemma filter_split_length {A : Type} (f : A -> bool) (l : list A) :
  (List.length (filter f l) + List.length (filter (fun x => negb (f x)) l))%nat
  = List.length l.
Proof.
  induction l as [|x l IH]; simpl; [reflexivity|].
  destruct (f x); simpl; lia.
Qed.

(** X9: [endPress] is safe to repeat and safe after the timer has run or
    has been cleared: a second release changes nothing more, no release
    emits an event, and once the timer held by the slot is no longer armed
    a release leaves the detector as it is. *)
Theorem endPress_idempotent (d : Detector) :
  endPress (endPress d) = endPress d /\
  longPresses (endPress d) = longPresses d /\
  (forall h, timerRef d = Some h -> ~ In h (armed d) -> endPress d = d).
Proof.
  destruct d as [r ts c n lp]; unfold endPress; simpl.
  destruct r as [h|]; simpl; [|repeat split; intros; discriminate].
  unfold clearTimeout; simpl.
  split; [now rewrite filter_twice|].
  split; [reflexivity|].
  intros h' [= <-] Hn; f_equal.
  apply filter_all; intros [k due] Hin; simpl.
  apply negb_true_iff, Pos.eqb_neq; intros E.
  apply Hn; unfold armed; simpl; rewrite <- E.
  exact (in_map fst _ _ Hin).
Qed.

Lemma endPress_idempotent_witness :
  endPress (advance 3000 (startPress (fresh 0))) =
  advance 3000 (startPress (fresh 0)).
Proof.
  destruct (endPress_idempotent (advance 3000 (startPress (fresh 0))))
    as (_ & _ & H).
  apply (H 1%positive); [reflexivity|].
  simpl; intros [].
Defined.



Lemma handleEvent_count (e : Event) (d : Detector) :
  (List.length (longPresses (handleEvent e d)) +
   List.length (timeouts (handleEvent e d)) <=
   List.length (longPresses d) + List.length (timeouts d) + starts [e])%nat.
Proof.
  destruct e as [| |dt]; unfold starts; simpl.
  - rewrite length_app; simpl; lia.
  - unfold endPress; destruct (timerRef d) as [h|]; simpl; [|lia].
    pose proof (filter_length_le
                  (fun t : positive * Z => negb (Pos.eqb (fst t) h))
                  (timeouts d)); lia.
  - rewrite length_app, length_map.
    pose proof (filter_split_length (is_due (clock d + dt)) (timeouts d)).
    lia.
Qed.

Lemma starts_cons (e : Event) (evs : list Event) :
  starts (e :: evs) = (starts [e] + starts evs)%nat.
Proof. unfold starts; simpl; destruct e; reflexivity. Qed.

(** X11: events are paid for by starts.  After any sequence of starts,
    releases and lapses of time on a fresh instance, the long-press events
    emitted and the timers still armed number together no more than the
    presses started. *)
Theorem events_bounded_by_starts (now : Z) (evs : list Event) :
  (List.length (longPresses (run evs (fresh now))) +
   List.length (timeouts (run evs (fresh now))) <= starts evs)%nat.
Proof.
  assert (G : forall evs d,
             (List.length (longPresses (run evs d)) +
              List.length (timeouts (run evs d)) <=
              List.length (longPresses d) + List.length (timeouts d) +
              starts evs)%nat).
  { clear; induction evs as [|e evs IH]; intros d; [simpl; lia|].
    change (run (e :: evs) d) with (run evs (handleEvent e d)).
    rewrite starts_cons.
    pose proof (IH (handleEvent e d)); pose proof (handleEvent_count e d).
    lia. }
  apply (G evs (fresh now)).
Qed.

(** ** Sessions on an instance with a past *)

Lemma wf_event (e : Event) (d : Detector) : wf d -> wf (handleEvent e d).
Proof.
  intros [Ha Hl]; rewrite Forall_forall in Ha, Hl.
  destruct e as [| |dt]; cbn [handleEvent]; split; apply Forall_forall;
    intros h Hin.
  - unfold armed in Hin; simpl in Hin.
    rewrite map_app, in_app_iff in Hin; simpl in Hin.
    destruct Hin as [Hin|[<-|[]]]; [specialize (Ha _ Hin)|]; simpl; lia.
  - simpl in *; specialize (Hl _ Hin); lia.
  - assert (nextTimer (endPress d) = nextTimer d) as ->
      by (unfold endPress; destruct (timerRef d); reflexivity).
    apply Ha; unfold endPress in Hin; destruct (timerRef d); [|exact Hin].
    eapply armed_filter; exact Hin.
  - assert (nextTimer (endPress d) = nextTimer d) as ->
      by (unfold endPress; destruct (timerRef d); reflexivity).
    apply Hl; unfold endPress in Hin; destruct (timerRef d); exact Hin.
  - simpl; apply Ha; eapply armed_filter; exact Hin.
  - simpl in *; apply in_app_or in Hin as [Hin|Hin]; [now apply Hl|].
    apply Ha; eapply armed_filter; exact Hin.
Qed.

Lemma wf_run (evs : list Event) (d : Detector) : wf d -> wf (run evs d).
Proof.
  revert d; induction evs as [|e evs IH]; intros d H; [exact H|].
  change (run (e :: evs) d) with (run evs (handleEvent e d)).
  now apply IH, wf_event.
Qed.

Lemma wf_fresh (now : Z) : wf (fresh now).
Proof. split; constructor. Qed.

Lemma elapse_keeps (t : positive * Z) (dts : list Z) (d : Detector) :
  Forall (fun dt => 0 <= dt) dts ->
  In t (timeouts d) -> clock d + total dts < snd t ->
  In t (timeouts (elapse dts d)).
Proof.
  intros Hpos; revert d; induction Hpos as [|dt dts Hdt Hpos IH];
    intros d Hin Hlt; [exact Hin|].
  simpl in Hlt; pose proof (total_nonneg dts Hpos).
  rewrite elapse_cons; apply IH.
  - simpl; apply filter_In; split; [exact Hin|].
    apply negb_true_iff, Z.leb_gt; lia.
  - simpl; lia.
Qed.

(** X12: a timer does not run early.  While the lapses since the start of
    a press add up to less than 3000 ms, the press has emitted no event
    and its timer is still armed, due 3000 ms after the start. *)
Theorem no_event_before_threshold (d : Detector) (dts : list Z) :
  wf d -> Forall (fun dt => 0 <= dt) dts -> total dts < T ->
  emitted (nextTimer d) (elapse dts (startPress d)) = 0%nat /\
  In (nextTimer d, clock d + T) (timeouts (elapse dts (startPress d))).
Proof.
  intros Hwf Hpos Hlt; split.
  - rewrite (elapse_waits (nextTimer d) (clock d + T)); auto.
    + exact (wf_not_emitted d Hwf).
    + now apply startPress_due_at.
    + simpl; lia.
  - apply elapse_keeps; auto.
    + simpl; apply in_or_app; right; now left.
    + simpl; lia.
Qed.

Lemma no_event_before_threshold_witness :
  emitted 1%positive (elapse [1500; 1499] (startPress (fresh 0))) = 0%nat /\
  In (1%positive, 0 + T) (timeouts (elapse [1500; 1499] (startPress (fresh 0)))).
Proof.
  apply (no_event_before_threshold (fresh 0) [1500; 1499]).
  - apply wf_fresh.
  - repeat constructor; lia.
  - vm_compute; reflexivity.
Defined.

Lemma held_emits_once (d : Detector) (dts : list Z) :
  wf d -> Forall (fun dt => 0 <= dt) dts -> T <= total dts ->
  spent (nextTimer d) (elapse dts (startPress d)) /\
  emitted (nextTimer d) (elapse dts (startPress d)) = 1%nat.
Proof.
  intros Hwf Hpos Hle.
  apply (elapse_fires (nextTimer d) (clock d + T)); auto.
  - now apply startPress_due_at.
  - simpl; lia.
  - unfold armed; simpl; rewrite map_app, count_occ_app; simpl.
    destruct (Pos.eq_dec (nextTimer d) (nextTimer d)); [|contradiction].
    change (map fst (timeouts d)) with (armed d).
    rewrite (proj1 (count_occ_not_In Pos.eq_dec _ _) (wf_not_armed d Hwf)).
    reflexivity.
  - exact (wf_not_emitted d Hwf).
  - simpl; unfold T; lia.
  - simpl; lia.
Qed.

Lemma released_emits_none (d : Detector) (dts : list Z) :
  wf d -> Forall (fun dt => 0 <= dt) dts -> total dts < T ->
  spent (nextTimer d) (endPress (elapse dts (startPress d))) /\
  emitted (nextTimer d) (endPress (elapse dts (startPress d))) = 0%nat.
Proof.
  intros Hwf Hpos Hlt.
  assert (He : emitted (nextTimer d) (elapse dts (startPress d)) = 0%nat).
  { rewrite (elapse_waits (nextTimer d) (clock d + T)); auto.
    - exact (wf_not_emitted d Hwf).
    - now apply startPress_due_at.
    - simpl; lia. }
  destruct (nextTimer_elapse dts (startPress d)) as [Hn Hr].
  unfold endPress; rewrite Hr; simpl; split; [split|exact He].
  - apply cleared_not_armed.
  - simpl; rewrite Hn; simpl; lia.
Qed.

(** X13: the detector can be armed again whatever happened before.  In
    any state a fresh instance reaches by starts, releases and lapses of
    time, with timers of earlier presses possibly still armed, a new press
    held for at least 3000 ms emits exactly one event of its own, and a
    new press released before 3000 ms emits none, now and after any
    further events. *)
Theorem sessions_after_any_past (now : Z) (past later : list Event)
    (dts : list Z) :
  Forall (fun dt => 0 <= dt) dts ->
  let d := run past (fresh now) in
  let h := nextTimer d in
  (T <= total dts ->
   emitted h (run later (elapse dts (startPress d))) = 1%nat) /\
  (total dts < T ->
   emitted h (run later (endPress (elapse dts (startPress d)))) = 0%nat).
Proof.
  intros Hpos d h.
  assert (Hwf : wf d) by (apply wf_run, wf_fresh).
  split; intros Ht.
  - destruct (held_emits_once d dts Hwf Hpos Ht) as [Hs He].
    destruct (spent_run later _ h Hs) as [_ ->]; exact He.
  - destruct (released_emits_none d dts Hwf Hpos Ht) as [Hs He].
    destruct (spent_run later _ h Hs) as [_ ->]; exact He.
Qed.

Lemma sessions_after_any_past_witness :
  emitted 3%positive
    (run [PressEnd; Elapse 9000]
       (elapse [3000] (startPress (run [PressStart; PressStart; PressEnd]
                                      (fresh 0))))) = 1%nat.
Proof.
  assert (Hpos : Forall (fun dt => 0 <= dt) [3000])
    by (repeat constructor; lia).
  destruct (sessions_after_any_past 0 [PressStart; PressStart; PressEnd]
              [PressEnd; Elapse 9000] [3000] Hpos) as [H _].
  apply H; vm_compute; discriminate.
Defined.

End DetectorSessions.

(* ------------------------------------------------------------------ *)
(** * Properties of navigation and of the poem type picker              *)
(* ------------------------------------------------------------------ *)
Section Screens.
Import App.

Local Open Scope string_scope.

Lemma call_screen (c : Call) (st : State) :
  screen (call c st) = screen st \/
  screen (call c st) = "camera" \/
  screen (call c st) = "history" \/
  screen (call c st) = "settings".
Proof. destruct c; simpl; auto. Qed.

Lemma calls_snoc (cs : list Call) (c : Call) (st : State) :
  calls (cs ++ [c]) st = call c (calls cs st).
Proof. unfold calls; now rewrite fold_left_app. Qed.

Lemma calls_screen (cs : list Call) :
  screen (calls cs init) = "camera" \/
  screen (calls cs init) = "history" \/
  screen (calls cs init) = "settings".
Proof.
  induction cs as [|c cs IH] using rev_ind; [now left|].
  rewrite calls_snoc.
  destruct (call_screen c (calls cs init)) as [E|[E|[E|E]]]; rewrite E; auto.
Qed.

(** X14: whatever handlers are called after the first render, in any
    order, [screen] is one of "camera", "history" and "settings", and
    [App] renders exactly one of the three screens: the one it names. *)
Theorem one_screen_shown (cs : list Call) :
  (screen (calls cs init) = "camera" /\ render (calls cs init) = [Camera]) \/
  (screen (calls cs init) = "history" /\ render (calls cs init) = [History]) \/
  (screen (calls cs init) = "settings" /\
   render (calls cs init) = [Settings]).
Proof.
  unfold render.
  destruct (calls_screen cs) as [E|[E|E]]; rewrite E; simpl; auto.
Qed.

Lemma toggles_snoc (cs : list Call) (c : Call) :
  toggles (cs ++ [c]) = (toggles cs + toggles [c])%nat.
Proof. unfold toggles; now rewrite filter_app, length_app. Qed.

(** X15: the flash setting lives in [App] and only [toggleFlash] writes
    it: after any calls it is the setting at the start if [toggleFlash]
    was called an even number of times and its opposite otherwise, however
    the calls are mixed with navigation. *)
Theorem flash_follows_toggles (cs : list Call) (st : State) :
  flashOn (calls cs st) =
  (if Nat.even (toggles cs) then flashOn st else negb (flashOn st)).
Proof.
  induction cs as [|c cs IH] using rev_ind; [reflexivity|].
  rewrite calls_snoc, toggles_snoc.
  destruct c; unfold toggles at 2; simpl;
    rewrite ?Nat.add_0_r, ?Nat.add_1_r, ?Nat.even_succ, <- ?Nat.negb_even;
    rewrite IH; destruct (Nat.even (toggles cs)), (flashOn st); reflexivity.
Qed.

End Screens.

Section PoemType.
Import SettingsScreen.

Local Open Scope string_scope.

Lemma pick_in (k : nat) (sel : string) :
  In sel poemTypes -> In (pick k sel) poemTypes.
Proof.
  intros H; unfold pick, radios, onChange.
  rewrite nth_error_map.
  destruct (nth_error poemTypes k) as [type|] eqn:E; cbn [option_map];
    [|exact H].
  eapply nth_error_In; exact E.
Qed.

Lemma picks_in (ks : list nat) (sel : string) :
  In sel poemTypes -> In (picks ks sel) poemTypes.
Proof.
  revert sel; induction ks as [|k ks IH]; intros sel H; [exact H|].
  change (picks (k :: ks) sel) with (picks ks (pick k sel)).
  now apply IH, pick_in.
Qed.

(** X16: whatever radios are picked, the selected poem type is one of the
    five listed and exactly one radio is checked, the one of the selected
    type. *)
Theorem one_radio_checked (ks : list nat) :
  In (picks ks init) poemTypes /\
  checked (picks ks init) = [picks ks init].
Proof.
  assert (H : In (picks ks init) poemTypes)
    by (apply picks_in; left; reflexivity).
  split; [exact H|].
  simpl in H.
  destruct H as [<-|[<-|[<-|[<-|[<-|[]]]]]]; reflexivity.
Qed.

End PoemType.
